(** * SecureNN over Pond: the non-linear layer of tensorflow_encrypted

    A shallow embedding of [tensorflow_encrypted/protocol/securenn.py].

    The Python module builds on three collaborators which it imports and
    which are not part of the verified source: the ring tensor backend
    ([..tensor]), the base sharing protocol [Pond] ([..protocol.pond]) and
    the [memoize] decorator ([.protocol]).  They are modelled here from the
    prose specification, each under a comment that says so; everything
    below the heading "securenn.py" follows the Python text line by line.

    Conventions of the embedding:
    - every backend operation used by securenn.py acts element by element,
      so a tensor is represented by one ring element (shape [()]); the only
      tensors with an extra axis are bit decompositions, represented as the
      list of their slices along the bit axis, least significant first;
    - randomness ([sample_uniform], [random.choice]) is read from an
      entropy supply carried by the state, so that runs are functions of
      the supply;
    - every backend or protocol step appends an event to a trace together
      with the [tf.device] placement under which it ran;
    - [raise] and a failing [assert] end the run with the exception;
    - a [@memoize]d method is represented by its body, that is by the
      behaviour of a call that is not answered from the cache. *)

From Stdlib Require Import ZArith List Bool String Lia.
Import ListNotations.
Local Open Scope Z_scope.

(** ** Effects *)

Inductive exn : Type :=
| AssertionError        (* a failing [assert] *)
| Exception             (* [raise Exception('...')]: the configuration error *)
| NotImplementedError   (* the unimplemented-operation signal *)
| TypeError             (* [dispatch] finds no implementation *)
| IndexError.           (* indexing an axis of size zero *)

Inductive Player : Type := server_0 | server_1 | crypto_producer.

Record event : Type := Event { ev_device : option Player; ev_op : string }.

Record world : Type := World {
  entropy : nat -> Z;        (* the randomness supply *)
  drawn   : nat;             (* how many draws have been made *)
  device  : option Player;   (* innermost enclosing [with tf.device] *)
  trace   : list event       (* steps performed, most recent first *)
}.

Inductive outcome (A : Type) : Type :=
| Return (a : A)
| Raise (e : exn).
Arguments Return {A} a.
Arguments Raise {A} e.

Definition prog (A : Type) : Type := world -> outcome A * world.

Definition ret {A} (a : A) : prog A := fun w => (Return a, w).

Definition bind {A B} (m : prog A) (k : A -> prog B) : prog B :=
  fun w => match m w with
           | (Return a, w') => k a w'
           | (Raise e, w') => (Raise e, w')
           end.

Definition raise {A} (e : exn) : prog A := fun w => (Raise e, w).

Declare Scope prog_scope.
Delimit Scope prog_scope with prog.
Notation "x <- m ;; k" := (bind m (fun x => k))
  (at level 61, m at next level, right associativity) : prog_scope.
Notation "m ;; k" := (bind m (fun _ => k))
  (at level 61, right associativity) : prog_scope.
Local Open Scope prog_scope.

(** [assert c, "..."] *)
Definition assert (c : bool) : prog unit :=
  if c then ret tt else raise AssertionError.

(** One step of computation, recorded with its placement. *)
Definition emit (op : string) : prog unit :=
  fun w => (Return tt,
            World (entropy w) (drawn w) (device w)
                  (Event (device w) op :: trace w)).

(** The next value of the randomness supply. *)
Definition draw : prog Z :=
  fun w => (Return (entropy w (drawn w)),
            World (entropy w) (S (drawn w)) (device w) (trace w)).

(** [with tf.device(player.device_name): body]; the placement is restored
    when the block is left, also by an exception. *)
Definition with_device {A} (pl : Player) (body : prog A) : prog A :=
  fun w =>
    let '(r, w') := body (World (entropy w) (drawn w) (Some pl) (trace w)) in
    (r, World (entropy w') (drawn w') (device w) (trace w')).

Fixpoint mapM {A B} (f : A -> prog B) (l : list A) : prog (list B) :=
  match l with
  | [] => ret []
  | a :: l' => b <- f a ;; bs <- mapM f l' ;; ret (b :: bs)
  end.

(** ** The ring tensor backend *)

Module Tensor.

(** Modelled from the spec: the ring element backend ([..tensor.factory],
    [..tensor.prime], [..tensor.odd_implicit], [..tensor.tensor]), which the
    module imports.  A ring element is an integer together with the modulus
    of the ring it lives in; arithmetic is that of the left operand's
    ring. *)
Record AbstractTensor : Type := Tensor { value : Z; modulus : Z }.

(** Modelled from the spec: a factory stands for a ring; [Tensor.modulus] of
    the factory is the cardinality of that ring. *)
Record AbstractFactory : Type := Factory { factory_modulus : Z }.

(** Modelled from the spec: [prime_factory(p)], the small prime ring. *)
Definition prime_factory (q : Z) : AbstractFactory := Factory q.

(** Modelled from the spec: the constructor [PrimeTensor(value, p)] keeps
    the value it is given and tags it with the prime modulus. *)
Definition PrimeTensor (v q : Z) : AbstractTensor := Tensor v q.

(** Modelled from the spec: [OddImplicitTensor(value, dtype)], an element
    of the odd ring whose cardinality is [odd]. *)
Definition OddImplicitTensor (v odd : Z) : AbstractTensor := Tensor v odd.

Definition add (x y : AbstractTensor) : AbstractTensor :=
  Tensor ((value x + value y) mod modulus x) (modulus x).

Definition sub (x y : AbstractTensor) : AbstractTensor :=
  Tensor ((value x - value y) mod modulus x) (modulus x).

Definition mul (x y : AbstractTensor) : AbstractTensor :=
  Tensor ((value x * value y) mod modulus x) (modulus x).

Definition negative (x : AbstractTensor) : AbstractTensor :=
  Tensor ((- value x) mod modulus x) (modulus x).

(** Modelled from the spec: [factory.Tensor.from_native(array)]. *)
Definition from_native (f : AbstractFactory) (v : Z) : prog AbstractTensor :=
  emit "from_native" ;;
  ret (Tensor (v mod factory_modulus f) (factory_modulus f)).

(** Modelled from the spec: [sample_uniform(shape)], a uniformly sampled
    element of the factory's ring. *)
Definition sample_uniform (f : AbstractFactory) : prog AbstractTensor :=
  emit "sample_uniform" ;;
  r <- draw ;;
  ret (Tensor (r mod factory_modulus f) (factory_modulus f)).

(** Modelled from the spec: [x.compute_wrap(y, modulus)], the wrap
    indicator: "a single bit (per element) recording whether summing two
    shares modulo M overflowed the modulus". *)
Definition compute_wrap (x y : AbstractTensor) (m : Z) : prog AbstractTensor :=
  emit "compute_wrap" ;;
  ret (Tensor (if m <=? value x + value y then 1 else 0) (modulus x)).

Fixpoint bits_of (n : nat) (v : Z) : list Z :=
  match n with
  | O => []
  | S n' => v mod 2 :: bits_of n' (v / 2)
  end.

(** The number of binary digits of the largest element [m - 1], at least
    one. *)
Definition bit_length (m : Z) : nat := S (Z.to_nat (Z.log2 (m - 1))).

(** Modelled from the spec: [x.to_bits()], the bit decomposition of a ring
    element, least significant bit at index 0. *)
Definition to_bits (x : AbstractTensor) : prog (list AbstractTensor) :=
  emit "to_bits" ;;
  ret (map (fun b => Tensor b (modulus x))
           (bits_of (bit_length (modulus x)) (value x))).

(** Modelled from the spec: [reinterpret_to_ring(value, target_ring)], the
    backend primitive behind [x.to_odd_modulus()]: the same integer read as
    an element of the target ring. *)
Definition reinterpret_to_ring (x : AbstractTensor) (target : Z)
  : prog AbstractTensor :=
  emit "to_odd_modulus" ;;
  ret (Tensor (value x mod target) target).

(** Modelled from the spec: [c.optional_sub(x, bits)], the optional-subtract
    operator: "constant - x_share when the corresponding bitmask bit is 1,
    else left unchanged"; the result lives in the ring of the constant. *)
Definition optional_sub (c x bits : AbstractTensor) : prog AbstractTensor :=
  emit "optional_sub" ;;
  ret (if value bits =? 1
       then sub c x
       else Tensor (value x) (modulus c)).

End Tensor.

Import Tensor.

(** ** The protocol object *)

(** [SecureNN.__init__]: the protocol keeps the factory of the main ring
    (inherited from [Pond]) and [alt_factory], by default [prime_factory(p)].
    The three players are the constructors of [Player]. *)
Record SecureNN : Type := Protocol {
  tensor_factory : AbstractFactory;
  alt_factory    : AbstractFactory
}.

(** [p = 67] *)
Definition p : Z := 67.

(** Modelled from the spec: [self.M], "the active main modulus", is the
    cardinality of the ring of [tensor_factory]. *)
Definition M (prot : SecureNN) : Z := factory_modulus (tensor_factory prot).

(** ** The base sharing protocol *)

Module Pond.

(** Modelled from the spec: the three representations of a value.  A
    public value is two identical plaintext copies, a private value two
    shares that sum to the secret in their ring, a masked value a private
    value together with its mask (private) and the revealed masked
    counterpart (public).  Each carries the scaling flag. *)
Record PondPublicTensor : Type := PondPublic {
  value_on_0 : AbstractTensor;
  value_on_1 : AbstractTensor;
  public_is_scaled : bool
}.

Record PondPrivateTensor : Type := PondPrivate {
  share0 : AbstractTensor;
  share1 : AbstractTensor;
  private_is_scaled : bool
}.

Inductive PondTensor : Type :=
| Public (x : PondPublicTensor)
| Private (x : PondPrivateTensor)
| Masked (unmasked : PondTensor) (a : PondPrivateTensor)
         (alpha : PondPublicTensor) (masked_is_scaled : bool).

Definition is_scaled (x : PondTensor) : bool :=
  match x with
  | Public x => public_is_scaled x
  | Private x => private_is_scaled x
  | Masked _ _ _ s => s
  end.

(** The value under the mask: arithmetic on a masked value is arithmetic on
    its unmasked interior. *)
Fixpoint interior (x : PondTensor) : PondPublicTensor + PondPrivateTensor :=
  match x with
  | Public x => inl x
  | Private x => inr x
  | Masked u _ _ _ => interior u
  end.

(** Modelled from the spec: a Python number used as an operand is lifted
    to a public constant of the main ring. *)
Definition lift (prot : SecureNN) (c : Z) : PondTensor :=
  let t := Tensor (c mod M prot) (M prot) in
  Public (PondPublic t t false).

(** Modelled from the spec: [reveal], "combining all parties' shares to
    reconstruct a plaintext value". *)
Definition reveal (x : PondPrivateTensor) : prog PondPublicTensor :=
  emit "reveal" ;;
  let v := Tensor.add (share0 x) (share1 x) in
  ret (PondPublic v v (private_is_scaled x)).

(** Modelled from the spec: [_share(secret, factory)], "(re-)share(value[,
    target_ring])": the first share is sampled in the target ring, the
    second is the secret minus the first; without a factory the ring is the
    main one. *)
Definition _share (prot : SecureNN) (secret : AbstractTensor)
    (factory : option AbstractFactory)
  : prog (AbstractTensor * AbstractTensor) :=
  let f := match factory with Some f => f | None => tensor_factory prot end in
  emit "share" ;;
  share0 <- sample_uniform f ;;
  ret (share0,
       Tensor ((value secret - value share0) mod factory_modulus f)
              (factory_modulus f)).

(** [_share] on a tensor with a bit axis: slice by slice. *)
Definition _share_bits (prot : SecureNN) (secret : list AbstractTensor)
    (factory : option AbstractFactory)
  : prog (list AbstractTensor * list AbstractTensor) :=
  shares <- mapM (fun b => _share prot b factory) secret ;;
  ret (split shares).

Definition add_private_private (x y : PondPrivateTensor) : PondPrivateTensor :=
  PondPrivate (Tensor.add (share0 x) (share0 y))
              (Tensor.add (share1 x) (share1 y))
              (private_is_scaled x || private_is_scaled y).

Definition sub_private_private (x y : PondPrivateTensor) : PondPrivateTensor :=
  PondPrivate (Tensor.sub (share0 x) (share0 y))
              (Tensor.sub (share1 x) (share1 y))
              (private_is_scaled x || private_is_scaled y).

(** The private/private case of [add] and [sub] with its static type. *)
Definition add_private (x y : PondPrivateTensor) : prog PondPrivateTensor :=
  emit "add" ;; ret (add_private_private x y).

Definition sub_private (x y : PondPrivateTensor) : prog PondPrivateTensor :=
  emit "sub" ;; ret (sub_private_private x y).

(** Modelled from the spec: [add], by representation.  Public plus public
    is computed on both copies; a public value is added to the first share
    of a private one; two private values are added share by share. *)
Definition add (x y : PondTensor) : prog PondTensor :=
  emit "add" ;;
  ret (match interior x, interior y with
       | inl x, inl y =>
           Public (PondPublic (Tensor.add (value_on_0 x) (value_on_0 y))
                              (Tensor.add (value_on_1 x) (value_on_1 y))
                              (public_is_scaled x || public_is_scaled y))
       | inl x, inr y =>
           Private (PondPrivate (Tensor.add (value_on_0 x) (share0 y))
                                (share1 y)
                                (public_is_scaled x || private_is_scaled y))
       | inr x, inl y =>
           Private (PondPrivate (Tensor.add (share0 x) (value_on_0 y))
                                (share1 x)
                                (private_is_scaled x || public_is_scaled y))
       | inr x, inr y => Private (add_private_private x y)
       end).

(** Modelled from the spec: [sub], by representation, as [add]. *)
Definition sub (x y : PondTensor) : prog PondTensor :=
  emit "sub" ;;
  ret (match interior x, interior y with
       | inl x, inl y =>
           Public (PondPublic (Tensor.sub (value_on_0 x) (value_on_0 y))
                              (Tensor.sub (value_on_1 x) (value_on_1 y))
                              (public_is_scaled x || public_is_scaled y))
       | inl x, inr y =>
           Private (PondPrivate (Tensor.sub (value_on_0 x) (share0 y))
                                (Tensor.negative (share1 y))
                                (public_is_scaled x || private_is_scaled y))
       | inr x, inl y =>
           Private (PondPrivate (Tensor.sub (share0 x) (value_on_0 y))
                                (share1 x)
                                (private_is_scaled x || public_is_scaled y))
       | inr x, inr y => Private (sub_private_private x y)
       end).

(** Modelled from the spec: [mul], the "ring multiplication share
    protocol".  With a public factor each share is multiplied locally; for
    two private factors the protocol is represented by its contract, a
    sharing of the product whose first share is freshly sampled.  (The
    rescaling of a product of two scaled values is not represented.) *)
Definition mul (x y : PondTensor) : prog PondTensor :=
  emit "mul" ;;
  match interior x, interior y with
  | inl x, inl y =>
      ret (Public (PondPublic (Tensor.mul (value_on_0 x) (value_on_0 y))
                              (Tensor.mul (value_on_1 x) (value_on_1 y))
                              (public_is_scaled x || public_is_scaled y)))
  | inl x, inr y =>
      ret (Private (PondPrivate (Tensor.mul (share0 y) (value_on_0 x))
                                (Tensor.mul (share1 y) (value_on_1 x))
                                (public_is_scaled x || private_is_scaled y)))
  | inr x, inl y =>
      ret (Private (PondPrivate (Tensor.mul (share0 x) (value_on_0 y))
                                (Tensor.mul (share1 x) (value_on_1 y))
                                (private_is_scaled x || public_is_scaled y)))
  | inr x, inr y =>
      let m := modulus (share0 x) in
      z0 <- with_device crypto_producer (sample_uniform (Factory m)) ;;
      let xy := (value (share0 x) + value (share1 x))
                * (value (share0 y) + value (share1 y)) in
      ret (Private (PondPrivate z0 (Tensor ((xy - value z0) mod m) m)
                                (private_is_scaled x || private_is_scaled y)))
  end.

End Pond.

Import Pond.

(** The plaintext carried by a value: a private value is reconstructed by
    summing its shares in their ring. *)
Definition reconstruct (x : PondPrivateTensor) : Z :=
  (value (share0 x) + value (share1 x)) mod modulus (share0 x).

Definition plaintext (x : PondTensor) : Z :=
  match interior x with
  | inl x => value (value_on_0 x)
  | inr x => reconstruct x
  end.

(** * securenn.py *)

Notation "' pat <- m ;; k" := (bind m (fun x => let 'pat := x in k))
  (at level 61, pat pattern, m at next level, right associativity)
  : prog_scope.

(** ** Boolean algebra on shared bits (lines 40-61) *)

Definition bitwise_not (prot : SecureNN) (x : PondTensor) : prog PondTensor :=
  assert (negb (is_scaled x)) ;;
  Pond.sub (lift prot 1) x.

Definition bitwise_and (prot : SecureNN) (x y : PondTensor) : prog PondTensor :=
  assert (negb (is_scaled x)) ;;
  assert (negb (is_scaled y)) ;;
  Pond.mul x y.

Definition bitwise_or (prot : SecureNN) (x y : PondTensor) : prog PondTensor :=
  assert (negb (is_scaled x)) ;;
  assert (negb (is_scaled y)) ;;
  s <- Pond.add x y ;;
  a <- bitwise_and prot x y ;;
  Pond.sub s a.

Definition bitwise_xor (prot : SecureNN) (x y : PondTensor) : prog PondTensor :=
  assert (negb (is_scaled x)) ;;
  assert (negb (is_scaled y)) ;;
  s <- Pond.add x y ;;
  a <- bitwise_and prot x y ;;
  a2 <- Pond.mul a (lift prot 2) ;;
  Pond.sub s a2.

(** The odd ring targeted by share conversion has cardinality [M - 1]. *)
Definition odd_modulus (prot : SecureNN) : Z := M prot - 1.

Definition odd_modulus_bitwise_xor (prot : SecureNN)
    (x : PondPrivateTensor) (bits : PondPublicTensor) : prog PondPrivateTensor :=
  share0 <- with_device server_0
              (let ones := OddImplicitTensor 1 (odd_modulus prot) in
               optional_sub ones (share0 x) (value_on_0 bits)) ;;
  share1 <- with_device server_1
              (let zeros := OddImplicitTensor 0 (odd_modulus prot) in
               optional_sub zeros (share1 x) (value_on_1 bits)) ;;
  ret (PondPrivate share0 share1 false).

(** ** Unimplemented operations (lines 118-119, 185-186, 193-197) *)

Definition private_compare (prot : SecureNN)
    (x : list PondTensor) (r : PondTensor) (beta : PondTensor)
  : prog PondTensor :=
  raise NotImplementedError.

Definition divide (prot : SecureNN) (x y : PondTensor) : prog PondTensor :=
  raise NotImplementedError.

Definition max_pool (prot : SecureNN) (x : PondTensor) : prog PondTensor :=
  raise NotImplementedError.

Definition dmax_pool_efficient (prot : SecureNN) (x : PondTensor)
  : prog PondTensor :=
  raise NotImplementedError.

(** ** Helpers (lines 245-254) *)

Definition _generate_random_bits (prot : SecureNN) : prog PondPublicTensor :=
  backing <- sample_uniform (prime_factory 2) ;;
  ret (PondPublic backing backing false).

Definition share_with_wrap (prot : SecureNN) (sample : AbstractTensor)
    (modulus : Z) : prog (AbstractTensor * AbstractTensor * AbstractTensor) :=
  '(x, y) <- _share prot sample None ;;
  kappa <- compute_wrap x y modulus ;;
  ret (x, y, kappa).

(** ** Least significant bit (lines 86-87, 209-242) *)

(** [t[..., 0]]: the slice at index 0 of the bit axis. *)
Definition index0 {A} (t : list A) : prog A :=
  match t with
  | b :: _ => ret b
  | [] => raise IndexError
  end.

Definition _lsb_private (prot : SecureNN) (y : PondPrivateTensor)
  : prog PondTensor :=
  '(x, xbits, xlsb) <-
     with_device crypto_producer
       (x <- sample_uniform (tensor_factory prot) ;;
        xbits <- to_bits x ;;
        xlsb <- index0 xbits ;;
        '(x0, x1) <- _share prot x (Some (tensor_factory prot)) ;;
        '(xbits0, xbits1) <- _share_bits prot xbits (Some (alt_factory prot)) ;;
        '(xlsb0, xlsb1) <- _share prot xlsb (Some (tensor_factory prot)) ;;
        ret (PondPrivate x0 x1 false,
             map (fun s => Private (PondPrivate (fst s) (snd s) false))
                 (combine xbits0 xbits1),
             PondPrivate xlsb0 xlsb1 false)) ;;
  choice <- draw ;;
  let bits_device := if Z.even choice then server_0 else server_1 in
  b <- with_device bits_device (_generate_random_bits prot) ;;
  yx <- add_private y x ;;
  r <- reveal yx ;;
  let '(r0, r1) := (value_on_0 r, value_on_1 r) in
  rbits0 <- to_bits r0 ;;
  rbits1 <- to_bits r1 ;;
  let rbits := map (fun v => Public (PondPublic (fst v) (snd v) false))
                   (combine rbits0 rbits1) in
  rlsb <- index0 rbits ;;
  bp <- private_compare prot xbits (Public r) (Public b) ;;
  gamma <- bitwise_xor prot bp (Public b) ;;
  delta <- bitwise_xor prot (Private xlsb) rlsb ;;
  alpha <- bitwise_xor prot gamma delta ;;
  ret alpha.

(** [prot.lsb(x.unmasked)]; the method [lsb] of the protocol is passed in,
    as the mutual reference between [lsb] and [_lsb_masked] goes through
    the protocol object. *)
Definition _lsb_masked (prot_lsb : PondTensor -> prog PondTensor)
    (x_unmasked : PondTensor) : prog PondTensor :=
  prot_lsb x_unmasked.

(** Modelled from the spec: [dispatch('lsb', x, container=_thismodule)]
    resolves by the representation of [x] to [_lsb_private] or
    [_lsb_masked]; the module has no implementation for public values. *)
Fixpoint lsb (prot : SecureNN) (x : PondTensor) : prog PondTensor :=
  match x with
  | Private y => _lsb_private prot y
  | Masked unmasked _ _ _ => _lsb_masked (lsb prot) unmasked
  | Public _ => raise TypeError
  end.

(** ** Sign and comparison (lines 76-116, 188-191) *)

Definition msb (prot : SecureNN) (x : PondTensor) : prog PondTensor :=
  if negb (M prot mod 2 =? 1)
  then raise Exception
  else x2 <- Pond.mul x (lift prot 2) ;; lsb prot x2.

Definition negative (prot : SecureNN) (x : PondTensor) : prog PondTensor :=
  msb prot x.

Definition non_negative (prot : SecureNN) (x : PondTensor) : prog PondTensor :=
  m <- msb prot x ;; bitwise_not prot m.

Definition less (prot : SecureNN) (x y : PondTensor) : prog PondTensor :=
  d <- Pond.sub x y ;; negative prot d.

Definition greater (prot : SecureNN) (x y : PondTensor) : prog PondTensor :=
  d <- Pond.sub y x ;; negative prot d.

Definition less_equal (prot : SecureNN) (x y : PondTensor) : prog PondTensor :=
  g <- greater prot x y ;; bitwise_not prot g.

Definition greater_equal (prot : SecureNN) (x y : PondTensor)
  : prog PondTensor :=
  l <- less prot x y ;; bitwise_not prot l.


Definition relu (prot : SecureNN) (x : PondTensor) : prog PondTensor :=
  drelu <- non_negative prot x ;;
  Pond.mul drelu x.

(** ** Share conversion (lines 121-183, 199-206) *)

Definition to_odd_modulus (prot : SecureNN) (x : PondPrivateTensor)
  : prog PondPrivateTensor :=
  share0 <- with_device server_0
              (reinterpret_to_ring (share0 x) (odd_modulus prot)) ;;
  share1 <- with_device server_1
              (reinterpret_to_ring (share1 x) (odd_modulus prot)) ;;
  ret (PondPrivate share0 share1 false).

(** The local variables of [share_convert] that are live after line 171. *)
Record frame : Type := Frame {
  bitmask     : PondPublicTensor;
  alpha       : PondPrivateTensor;
  beta_wrap   : PondPrivateTensor;
  bitshares   : list PondTensor;
  deltashares : PondPrivateTensor;
  compared    : PondPrivateTensor
}.

(** Lines 127-171 of [share_convert]: masking, wrap bits and the sharing of
    [outbit].  The call of [private_compare] on line 165 is a comment in
    the source; [outbit] is the constant one. *)
Definition share_convert_shares (prot : SecureNN) (x : PondPrivateTensor)
    (L : Z) : prog frame :=
  '(bitmask, sharemask0, sharemask1, alpha_wrap, masked) <-
     with_device server_0
       (bitmask <- _generate_random_bits prot ;;
        s <- sample_uniform (tensor_factory prot) ;;
        let sharemask := Tensor.add s (Tensor 1 (modulus s)) in
        '(sharemask0, sharemask1, alpha_wrap) <-
           share_with_wrap prot sharemask L ;;
        let pvt_sharemask := PondPrivate sharemask0 sharemask1 false in
        masked <- add_private x pvt_sharemask ;;
        ret (bitmask, sharemask0, sharemask1, alpha_wrap, masked)) ;;
  let alpha_wrap_t := PrimeTensor (- value alpha_wrap - 1) p in
  let zero := PrimeTensor 0 p in
  let alpha := PondPrivate alpha_wrap_t zero false in
  beta_wrap_0 <- with_device server_0
                   (compute_wrap (share0 x) sharemask0 L) ;;
  beta_wrap_1 <- with_device server_1
                   (compute_wrap (share1 x) sharemask1 L) ;;
  let beta_wrap := PondPrivate beta_wrap_0 beta_wrap_1 false in
  '(delta_wrap, xbits) <-
     with_device crypto_producer
       (delta_wrap <- compute_wrap (share0 masked) (share1 masked) L ;;
        x_pub_masked <- reveal masked ;;
        xbits <- to_bits (value_on_0 x_pub_masked) ;;
        ret (delta_wrap, xbits)) ;;
  '(deltashare0, deltashare1) <- _share prot delta_wrap None ;;
  '(bitshare0, bitshare1) <- _share_bits prot xbits (Some (alt_factory prot)) ;;
  let bitshares := map (fun s => Private (PondPrivate (fst s) (snd s) false))
                       (combine bitshare0 bitshare1) in
  let deltashares := PondPrivate deltashare0 deltashare1 false in
  outbit <- with_device server_0
              (inp <- from_native (tensor_factory prot) 1 ;;
               ret (PondPublic inp inp false)) ;;
  '(compared0, compared1) <- _share prot (value_on_0 outbit) None ;;
  let compared := PondPrivate compared0 compared1 false in
  ret (Frame bitmask alpha beta_wrap bitshares deltashares compared).

(** Lines 173-183 of [share_convert]. *)
Definition share_convert_combine (prot : SecureNN) (x : PondPrivateTensor)
    (fr : frame) : prog PondPrivateTensor :=
  preconverter <- odd_modulus_bitwise_xor prot (compared fr) (bitmask fr) ;;
  deltashares <- to_odd_modulus prot (deltashares fr) ;;
  beta_wrap <- to_odd_modulus prot (beta_wrap fr) ;;
  c1 <- add_private beta_wrap preconverter ;;
  converter <- add_private c1 deltashares ;;
  alpha_odd <- to_odd_modulus prot (alpha fr) ;;
  converter <- add_private converter alpha_odd ;;
  x_odd <- to_odd_modulus prot x ;;
  sub_private x_odd converter.

Definition share_convert (prot : SecureNN) (x : PondPrivateTensor)
  : prog PondPrivateTensor :=
  let L := factory_modulus (tensor_factory prot) in
  if 2 ^ 64 <? L
  then raise Exception
  else fr <- share_convert_shares prot x L ;;
       share_convert_combine prot x fr.

(** ** Running a program *)

(** A world in which nothing has happened yet. *)
Definition fresh (e : nat -> Z) : world := World e 0 None [].

Definition result {A} (r : outcome A * world) : outcome A := fst r.
Definition final {A} (r : outcome A * world) : world := snd r.

(** * Reasoning about runs *)

(** [returns m Q]: from every world, [m] returns a value satisfying [Q]. *)
Definition returns {A} (m : prog A) (Q : A -> Prop) : Prop :=
  forall w, exists a w', m w = (Return a, w') /\ Q a.

(** [raises m e]: from every world, [m] ends by raising [e]. *)
Definition raises {A} (m : prog A) (e : exn) : Prop :=
  forall w, exists w', m w = (Raise e, w').

Definition anything {A} : A -> Prop := fun _ => True.

(** [run e d dev m n Q]: started with the randomness supply [e], of which
    [d] values have been drawn, and under the placement [dev], the program
    [m] returns a value satisfying [Q] after drawing exactly [n] more
    values; it leaves the supply and the placement as they were. *)
Definition run (e : nat -> Z) (d : nat) (dev : option Player) {A}
    (m : prog A) (n : nat) (Q : A -> Prop) : Prop :=
  forall tr, exists a tr',
    m (World e d dev tr) = (Return a, World e (d + n) dev tr') /\ Q a.

Definition is_private (z : PondTensor) : Prop := exists z', z = Private z'.

(** The exception met by the sign family on a private operand: the
    configuration error of [msb] under an even modulus, otherwise the
    signal of [private_compare]. *)
Definition sign_error (prot : SecureNN) : exn :=
  if M prot mod 2 =? 1 then NotImplementedError else Exception.






(** ** Concrete protocols and inputs *)

Definition even_protocol : SecureNN := Protocol (Factory 16) (prime_factory p).

Definition odd_protocol : SecureNN := Protocol (Factory 15) (prime_factory p).

(** The native 64-bit ring. *)
Definition native_protocol : SecureNN :=
  Protocol (Factory (2 ^ 64)) (prime_factory p).

(** [share_of m v s]: the sharing of [v] in the ring of cardinality [m]
    whose first share is [s]. *)
Definition share_of (m v s : Z) : PondPrivateTensor :=
  PondPrivate (Tensor (s mod m) m) (Tensor ((v - s) mod m) m) false.

Definition no_entropy : nat -> Z := fun _ => 0.

(** A supply whose first value is one and whose other values are zero: as
    the first draw of [share_convert] it sets the bitmask. *)
Definition bitmask_set : nat -> Z :=
  fun n => match n with O => 1 | S _ => 0 end.

(** ** Values and what they stand for *)

(** [x] lives in the main ring: its components are elements of the ring of
    cardinality [M], and the two copies of a public value agree. *)
Definition in_main_ring (prot : SecureNN) (x : PondTensor) : Prop :=
  match interior x with
  | inl x => modulus (value_on_0 x) = M prot /\ value_on_1 x = value_on_0 x
  | inr x => modulus (share0 x) = M prot /\ modulus (share1 x) = M prot
  end.

(** [x] stands for the integer [v] modulo [M]. *)
Definition denotes (prot : SecureNN) (x : PondTensor) (v : Z) : Prop :=
  in_main_ring prot x /\ plaintext x = v mod M prot.

(** [x] is an unscaled value of the main ring encoding the bit [b]. *)
Definition encodes_bit (prot : SecureNN) (x : PondTensor) (b : Z) : Prop :=
  is_scaled x = false /\ in_main_ring prot x /\
  plaintext x = b /\ (b = 0 \/ b = 1).

(** ** Share conversion written out *)





Section Rules.
Context {A B : Type}.

Lemma returns_ret (a : A) (Q : A -> Prop) : Q a -> returns (ret a) Q.
Proof. intros H w. exists a, w. split; [reflexivity | exact H]. Qed.

Lemma returns_bind (m : prog A) (k : A -> prog B) Q R :
  returns m Q -> (forall a, Q a -> returns (k a) R) -> returns (bind m k) R.
Proof.
  intros Hm Hk w. destruct (Hm w) as (a & w1 & E & Ha).
  destruct (Hk a Ha w1) as (b & w2 & E2 & Hb).
  exists b, w2. unfold bind. rewrite E. split; assumption.
Qed.

Lemma returns_weaken (m : prog A) (Q Q' : A -> Prop) :
  returns m Q -> (forall a, Q a -> Q' a) -> returns m Q'.
Proof.
  intros Hm HQ w. destruct (Hm w) as (a & w1 & E & Ha).
  exists a, w1. split; [exact E | apply HQ, Ha].
Qed.

Lemma returns_with_device pl (m : prog A) Q :
  returns m Q -> returns (with_device pl m) Q.
Proof.
  intros Hm w. unfold with_device.
  destruct (Hm (World (entropy w) (drawn w) (Some pl) (trace w)))
    as (a & w1 & E & Ha).
  rewrite E. eexists _, _. split; [reflexivity | exact Ha].
Qed.

Lemma raises_raise (e : exn) : raises (@raise A e) e.
Proof. intros w. exists w. reflexivity. Qed.

Lemma raises_bind_now (m : prog A) (k : A -> prog B) e :
  raises m e -> raises (bind m k) e.
Proof.
  intros Hm w. destruct (Hm w) as (w1 & E).
  exists w1. unfold bind. rewrite E. reflexivity.
Qed.

Lemma raises_bind_later (m : prog A) (k : A -> prog B) Q e :
  returns m Q -> (forall a, Q a -> raises (k a) e) -> raises (bind m k) e.
Proof.
  intros Hm Hk w. destruct (Hm w) as (a & w1 & E & Ha).
  destruct (Hk a Ha w1) as (w2 & E2).
  exists w2. unfold bind. rewrite E. exact E2.
Qed.

Lemma raises_with_device pl (m : prog A) e :
  raises m e -> raises (with_device pl m) e.
Proof.
  intros Hm w. unfold with_device.
  destruct (Hm (World (entropy w) (drawn w) (Some pl) (trace w)))
    as (w1 & E).
  rewrite E. eexists. reflexivity.
Qed.

End Rules.

Lemma returns_mapM {A B} (f : A -> prog B) (l : list A) :
  (forall a, returns (f a) anything) ->
  returns (mapM f l) (fun bs => List.length bs = List.length l).
Proof.
  intros Hf. induction l as [|a l IH]; simpl.
  - apply returns_ret. reflexivity.
  - eapply returns_bind; [apply Hf | intros b _].
    eapply returns_bind; [apply IH | intros bs Hbs].
    apply returns_ret. simpl. now rewrite Hbs.
Qed.

Lemma returns_emit op Q : Q tt -> returns (emit op) Q.
Proof. intros H w. eexists _, _. split; [reflexivity | exact H]. Qed.

Lemma returns_draw : returns draw anything.
Proof. intros w. eexists _, _. split; [reflexivity | exact I]. Qed.

Lemma returns_assert_true : returns (assert true) anything.
Proof. apply returns_ret. exact I. Qed.

(** One step of a [returns] derivation through a bind whose first command
    needs no postcondition. *)
Ltac returns_step :=
  lazymatch goal with
  | |- returns (ret _) _ => apply returns_ret
  | |- returns (emit _) _ => apply returns_emit
  | |- returns draw _ => eapply returns_weaken; [apply returns_draw | intros]
  | |- returns (with_device _ _) _ => apply returns_with_device
  | |- returns (bind _ _) _ =>
      eapply returns_bind; [ | intros ]
  | |- returns (let '(_, _) := ?x in _) _ => destruct x
  end.

Lemma returns_emit_any op : returns (emit op) anything.
Proof. apply returns_emit. exact I. Qed.

Lemma returns_ret_any {A} (a : A) : returns (ret a) anything.
Proof. apply returns_ret. exact I. Qed.

Create HintDb run discriminated.
#[export] Hint Resolve returns_emit_any returns_ret_any : run.

(** [returns_all] walks through a straight-line program whose commands are
    known (from the hint database) to return. *)
Ltac returns_all :=
  repeat (first
    [ exact I
    | solve [eauto with run]
    | returns_step ]).

(** ** The backend and the base protocol always return *)

Lemma returns_sample_uniform f : returns (sample_uniform f) anything.
Proof. unfold sample_uniform. returns_all. Qed.

Lemma returns_from_native f v : returns (from_native f v) anything.
Proof. unfold from_native. returns_all. Qed.

Lemma returns_compute_wrap x y m : returns (compute_wrap x y m) anything.
Proof. unfold compute_wrap. returns_all. Qed.

Lemma returns_to_bits x : returns (to_bits x) (fun bs => bs <> []).
Proof.
  unfold to_bits, bit_length. returns_step; [returns_all | ].
  apply returns_ret. simpl. discriminate.
Qed.

Lemma returns_reinterpret_to_ring x t :
  returns (reinterpret_to_ring x t) anything.
Proof. unfold reinterpret_to_ring. returns_all. Qed.

Lemma returns_optional_sub c x b : returns (optional_sub c x b) anything.
Proof. unfold optional_sub. returns_all. Qed.

#[export] Hint Resolve returns_sample_uniform returns_from_native
  returns_compute_wrap returns_reinterpret_to_ring returns_optional_sub
  returns_draw : run.

Lemma returns_reveal x : returns (reveal x) anything.
Proof. unfold reveal. returns_all. Qed.

Lemma returns_share prot s f : returns (_share prot s f) anything.
Proof. unfold _share. returns_all. Qed.

#[export] Hint Resolve returns_reveal returns_share : run.

Lemma returns_share_bits prot l f : returns (_share_bits prot l f) anything.
Proof.
  unfold _share_bits. returns_step; [ | returns_all ].
  apply returns_mapM. intros a. apply returns_share.
Qed.

Lemma returns_add x y : returns (Pond.add x y) anything.
Proof. unfold Pond.add. returns_all. Qed.

Lemma returns_sub x y : returns (Pond.sub x y) anything.
Proof. unfold Pond.sub. returns_all. Qed.

Lemma returns_mul x y : returns (Pond.mul x y) anything.
Proof.
  unfold Pond.mul. returns_step; [returns_all | ].
  destruct (interior x), (interior y); returns_all.
Qed.

Lemma returns_add_private x y : returns (add_private x y) anything.
Proof. unfold add_private. returns_all. Qed.

Lemma returns_sub_private x y : returns (sub_private x y) anything.
Proof. unfold sub_private. returns_all. Qed.

#[export] Hint Resolve returns_share_bits returns_add returns_sub returns_mul
  returns_add_private returns_sub_private : run.

(** ** The helpers of securenn.py always return *)

Lemma returns_generate_random_bits prot :
  returns (_generate_random_bits prot) anything.
Proof. unfold _generate_random_bits. returns_all. Qed.

Lemma returns_share_with_wrap prot s m :
  returns (share_with_wrap prot s m) anything.
Proof. unfold share_with_wrap. returns_all. Qed.

Lemma returns_to_odd_modulus prot x : returns (to_odd_modulus prot x) anything.
Proof. unfold to_odd_modulus. returns_all. Qed.

Lemma returns_odd_modulus_bitwise_xor prot x b :
  returns (odd_modulus_bitwise_xor prot x b) anything.
Proof. unfold odd_modulus_bitwise_xor. returns_all. Qed.

#[export] Hint Resolve returns_generate_random_bits returns_share_with_wrap
  returns_to_odd_modulus returns_odd_modulus_bitwise_xor : run.

Lemma returns_index0 {A} (l : list A) : l <> [] -> returns (index0 l) anything.
Proof.
  destruct l as [|a l]; [congruence | intros _]. apply returns_ret. exact I.
Qed.

Lemma returns_share_convert_shares prot x L :
  returns (share_convert_shares prot x L) anything.
Proof.
  unfold share_convert_shares. returns_all.
  all: try (eapply returns_weaken; [apply returns_to_bits | intros; exact I]).
  all: returns_all.
Qed.

Lemma returns_share_convert_combine prot x fr :
  returns (share_convert_combine prot x fr) anything.
Proof. unfold share_convert_combine. returns_all. Qed.

Lemma raises_result {A} (m : prog A) e w :
  raises m e -> result (m w) = Raise e.
Proof. intros H. destruct (H w) as (w' & E). rewrite E. reflexivity. Qed.

Lemma returns_run {A} (m : prog A) Q w :
  returns m Q -> exists a w', m w = (Return a, w').
Proof. intros H. destruct (H w) as (a & w' & E & _). eauto. Qed.

(** * Fatal paths *)

(** C7. [private_compare], [divide], [max_pool] and [dmax_pool_efficient]
    raise the unimplemented-operation signal for every input and from every
    world, and the world they leave is the one they were called in: no step
    was performed and no randomness was drawn before the raise. *)
Theorem unimplemented_operations_raise_at_once :
  forall prot (xbits : list PondTensor) (r beta x y : PondTensor) (w : world),
    private_compare prot xbits r beta w = (Raise NotImplementedError, w) /\
    divide prot x y w = (Raise NotImplementedError, w) /\
    max_pool prot x w = (Raise NotImplementedError, w) /\
    dmax_pool_efficient prot x w = (Raise NotImplementedError, w).
Proof. intros. repeat split. Qed.

Lemma returns_bitwise_not prot x :
  is_scaled x = false -> returns (bitwise_not prot x) anything.
Proof. intros Hx. unfold bitwise_not. rewrite Hx. simpl. returns_all. Qed.

Lemma returns_bitwise_and prot x y :
  is_scaled x = false -> is_scaled y = false ->
  returns (bitwise_and prot x y) anything.
Proof.
  intros Hx Hy. unfold bitwise_and. rewrite Hx, Hy. simpl. returns_all.
Qed.

Lemma returns_bitwise_or prot x y :
  is_scaled x = false -> is_scaled y = false ->
  returns (bitwise_or prot x y) anything.
Proof.
  intros Hx Hy. unfold bitwise_or. rewrite Hx, Hy. simpl.
  pose proof (returns_bitwise_and prot x y Hx Hy). returns_all.
Qed.

Lemma returns_bitwise_xor prot x y :
  is_scaled x = false -> is_scaled y = false ->
  returns (bitwise_xor prot x y) anything.
Proof.
  intros Hx Hy. unfold bitwise_xor. rewrite Hx, Hy. simpl.
  pose proof (returns_bitwise_and prot x y Hx Hy). returns_all.
Qed.

(** C8. Each of the four boolean operators checks the scaling flag of its
    operands before anything else.  If an operand is scaled the operator
    raises the assertion error and leaves the world untouched (nothing was
    computed); if no operand is scaled the assertion does not fire and the
    operator returns a value. *)
Theorem boolean_operators_reject_scaled_operands :
  forall prot (x y : PondTensor) (w : world),
    (if is_scaled x
     then bitwise_not prot x w = (Raise AssertionError, w)
     else exists z w', bitwise_not prot x w = (Return z, w')) /\
    (if is_scaled x || is_scaled y
     then bitwise_and prot x y w = (Raise AssertionError, w) /\
          bitwise_or prot x y w = (Raise AssertionError, w) /\
          bitwise_xor prot x y w = (Raise AssertionError, w)
     else (exists z w', bitwise_and prot x y w = (Return z, w')) /\
          (exists z w', bitwise_or prot x y w = (Return z, w')) /\
          (exists z w', bitwise_xor prot x y w = (Return z, w'))).
Proof.
  intros prot x y w. split.
  - destruct (is_scaled x) eqn:Hx.
    + unfold bitwise_not. rewrite Hx. reflexivity.
    + eapply returns_run, returns_bitwise_not, Hx.
  - destruct (is_scaled x) eqn:Hx; destruct (is_scaled y) eqn:Hy; simpl.
    1-3: unfold bitwise_and, bitwise_or, bitwise_xor;
         rewrite Hx, Hy; repeat split.
    repeat split; eapply returns_run.
    + apply returns_bitwise_and; assumption.
    + apply returns_bitwise_or; assumption.
    + apply returns_bitwise_xor; assumption.
Qed.

Lemma share_convert_above_ceiling prot x w :
  2 ^ 64 < M prot -> share_convert prot x w = (Raise Exception, w).
Proof.
  intros Hgt. unfold share_convert, M in *.
  destruct (Z.ltb_spec (2 ^ 64) (factory_modulus (tensor_factory prot)));
    [reflexivity | lia].
Qed.

Lemma share_convert_below_ceiling prot x w :
  M prot <= 2 ^ 64 -> exists r w', share_convert prot x w = (Return r, w').
Proof.
  intros Hle. unfold share_convert, M in *.
  destruct (Z.ltb_spec (2 ^ 64) (factory_modulus (tensor_factory prot)));
    [lia | ].
  eapply returns_run with (Q := anything).
  eapply returns_bind; [apply returns_share_convert_shares | intros fr _].
  apply returns_share_convert_combine.
Qed.

(** C10. [share_convert] compares the main modulus with [2^64] first.
    Above the ceiling it raises the configuration error in the world it was
    called in (no step performed, no randomness drawn); at or below the
    ceiling the check does not fire and the conversion returns. *)
Theorem share_convert_modulus_ceiling :
  forall prot (x : PondPrivateTensor) (w : world),
    (2 ^ 64 < M prot /\ share_convert prot x w = (Raise Exception, w)) \/
    (M prot <= 2 ^ 64 /\ exists r w', share_convert prot x w = (Return r, w')).
Proof.
  intros prot x w. destruct (Z_lt_le_dec (2 ^ 64) (M prot)) as [Hgt | Hle].
  - left. split; [exact Hgt | ].
    apply share_convert_above_ceiling, Hgt.
  - right. split; [exact Hle | ].
    apply share_convert_below_ceiling, Hle.
Qed.

(** * The sign family on private operands *)

Lemma raises_lsb_private prot y :
  raises (_lsb_private prot y) NotImplementedError.
Proof.
  unfold _lsb_private.
  eapply raises_bind_later with (Q := anything).
  { apply returns_with_device.
    eapply returns_bind; [apply returns_sample_uniform | intros x _].
    eapply returns_bind; [apply returns_to_bits | intros xbits Hxbits].
    eapply returns_bind; [apply returns_index0, Hxbits | intros xlsb _].
    returns_all. }
  intros [[x xbits] xlsb] _.
  eapply raises_bind_later; [apply returns_draw | intros choice _].
  eapply raises_bind_later; [returns_all | intros b _].
  eapply raises_bind_later; [returns_all | intros yx _].
  eapply raises_bind_later; [returns_all | intros r _].
  eapply raises_bind_later; [apply returns_to_bits | intros rbits0 H0].
  eapply raises_bind_later; [apply returns_to_bits | intros rbits1 H1].
  eapply raises_bind_later with (Q := anything).
  { apply returns_index0.
    destruct rbits0; [congruence | ]. destruct rbits1; [congruence | ].
    discriminate. }
  intros rlsb _. apply raises_bind_now, raises_raise.
Qed.

Lemma raises_lsb_of_private prot y :
  raises (lsb prot (Private y)) NotImplementedError.
Proof. apply raises_lsb_private. Qed.

Lemma returns_mul_private_constant prot x c :
  returns (Pond.mul (Private x) (lift prot c)) is_private.
Proof.
  unfold Pond.mul. eapply returns_bind; [apply returns_emit_any | intros _ _].
  simpl. apply returns_ret. eexists. reflexivity.
Qed.

Lemma returns_sub_private_private x y :
  returns (Pond.sub (Private x) (Private y)) is_private.
Proof.
  unfold Pond.sub. eapply returns_bind; [apply returns_emit_any | intros _ _].
  simpl. apply returns_ret. eexists. reflexivity.
Qed.

Lemma raises_msb_private prot x :
  raises (msb prot (Private x)) (sign_error prot).
Proof.
  unfold msb, sign_error. destruct (M prot mod 2 =? 1); simpl.
  - eapply raises_bind_later; [apply returns_mul_private_constant | ].
    intros x2 [x2' ->]. apply raises_lsb_of_private.
  - apply raises_raise.
Qed.

Lemma raises_negative_private prot x :
  raises (negative prot (Private x)) (sign_error prot).
Proof. apply raises_msb_private. Qed.

Lemma raises_non_negative_private prot x :
  raises (non_negative prot (Private x)) (sign_error prot).
Proof. apply raises_bind_now, raises_msb_private. Qed.

Lemma raises_less_private prot x y :
  raises (less prot (Private x) (Private y)) (sign_error prot).
Proof.
  eapply raises_bind_later; [apply returns_sub_private_private | ].
  intros d [d' ->]. apply raises_negative_private.
Qed.

Lemma raises_greater_private prot x y :
  raises (greater prot (Private x) (Private y)) (sign_error prot).
Proof.
  eapply raises_bind_later; [apply returns_sub_private_private | ].
  intros d [d' ->]. apply raises_negative_private.
Qed.

Lemma raises_less_equal_private prot x y :
  raises (less_equal prot (Private x) (Private y)) (sign_error prot).
Proof. apply raises_bind_now, raises_greater_private. Qed.

Lemma raises_greater_equal_private prot x y :
  raises (greater_equal prot (Private x) (Private y)) (sign_error prot).
Proof. apply raises_bind_now, raises_less_private. Qed.

Lemma raises_relu_private prot x :
  raises (relu prot (Private x)) (sign_error prot).
Proof. apply raises_bind_now, raises_non_negative_private. Qed.

Lemma parity_cases (m : Z) :
  (m mod 2 = 1 /\ (m mod 2 =? 1) = true) \/
  (m mod 2 = 0 /\ (m mod 2 =? 1) = false).
Proof.
  pose proof (Z.mod_pos_bound m 2 ltac:(lia)) as Hb.
  destruct (Z.eqb_spec (m mod 2) 1); [left | right]; split; auto; lia.
Qed.

(** C2 (as the code has it).  On a private operand [lsb] raises the
    unimplemented-operation signal under every modulus: its private path
    reaches [private_compare].  The operations built on it raise as well:
    under an odd modulus [msb], [negative], [non_negative], [less],
    [less_equal], [greater], [greater_equal] and [relu] raise the same
    signal; under an even modulus they raise the configuration error of
    [msb] instead, and [lsb] is not reached. *)
Theorem sign_family_raises_on_private_operands :
  forall prot (x y : PondPrivateTensor) (w : world),
    result (lsb prot (Private x) w) = Raise NotImplementedError /\
    exists e,
      ((M prot mod 2 = 1 /\ e = NotImplementedError) \/
       (M prot mod 2 = 0 /\ e = Exception)) /\
      result (msb prot (Private x) w) = Raise e /\
      result (negative prot (Private x) w) = Raise e /\
      result (non_negative prot (Private x) w) = Raise e /\
      result (less prot (Private x) (Private y) w) = Raise e /\
      result (less_equal prot (Private x) (Private y) w) = Raise e /\
      result (greater prot (Private x) (Private y) w) = Raise e /\
      result (greater_equal prot (Private x) (Private y) w) = Raise e /\
      result (relu prot (Private x) w) = Raise e.
Proof.
  intros prot x y w. split.
  - apply raises_result, raises_lsb_of_private.
  - exists (sign_error prot). split.
    { unfold sign_error.
      destruct (parity_cases (M prot)) as [[H ->] | [H ->]]; auto. }
    repeat split; apply raises_result.
    + apply raises_msb_private.
    + apply raises_negative_private.
    + apply raises_non_negative_private.
    + apply raises_less_private.
    + apply raises_less_equal_private.
    + apply raises_greater_private.
    + apply raises_greater_equal_private.
    + apply raises_relu_private.
Qed.

(** C2, counterexample.  Under the even modulus 16 [msb] of a private value
    ends with the configuration error, not with the
    unimplemented-operation signal. *)
Lemma msb_even_modulus_is_configuration_error :
  result (msb even_protocol (Private (share_of 16 3 5)) (fresh no_entropy))
    = Raise Exception /\
  result (msb even_protocol (Private (share_of 16 3 5)) (fresh no_entropy))
    <> Raise NotImplementedError.
Proof. split; [reflexivity | discriminate]. Qed.

(** C6 (as the code has it).  [msb] tests the parity of the main modulus
    before anything else: under an even modulus it raises the configuration
    error in the world it was called in, for every operand; under an odd
    modulus it is [lsb] of the operand times two.  [lsb] itself makes no
    such test: on a private operand it ends with the
    unimplemented-operation signal whatever the parity. *)
Theorem msb_checks_parity_and_lsb_does_not :
  forall prot (x : PondTensor) (y : PondPrivateTensor) (w : world),
    ((M prot mod 2 = 0 /\ msb prot x w = (Raise Exception, w)) \/
     (M prot mod 2 = 1 /\
      msb prot x w = (x2 <- Pond.mul x (lift prot 2) ;; lsb prot x2) w)) /\
    result (lsb prot (Private y) w) = Raise NotImplementedError.
Proof.
  intros prot x y w. split.
  - unfold msb.
    destruct (parity_cases (M prot)) as [[H ->] | [H ->]]; simpl.
    + right. split; [exact H | reflexivity].
    + left. split; [exact H | reflexivity].
  - apply raises_result, raises_lsb_of_private.
Qed.

(** C6, counterexample.  Under the even modulus 16, [lsb] of a private value
    does not raise the configuration error: it ends with the
    unimplemented-operation signal, after steps have been performed. *)
Lemma lsb_even_modulus_is_not_configuration_error :
  M even_protocol mod 2 = 0 /\
  lsb even_protocol (Private (share_of 16 3 5)) (fresh no_entropy)
    <> (Raise Exception, fresh no_entropy) /\
  result (lsb even_protocol (Private (share_of 16 3 5)) (fresh no_entropy))
    = Raise NotImplementedError /\
  trace (final (lsb even_protocol (Private (share_of 16 3 5))
                    (fresh no_entropy))) <> [].
Proof.
  split; [reflexivity | ].
  split; [ intros H; apply (f_equal fst) in H; vm_compute in H; discriminate | ].
  split; [ vm_compute; reflexivity | vm_compute; discriminate ].
Qed.

(** * Comparisons *)



(** * Boolean algebra on shared bits *)

Ltac push_mod :=
  repeat first
    [ rewrite Zplus_mod_idemp_l | rewrite Zplus_mod_idemp_r
    | rewrite Zminus_mod_idemp_l | rewrite Zminus_mod_idemp_r
    | rewrite Zmult_mod_idemp_l | rewrite Zmult_mod_idemp_r ].

Ltac open_denotes x y Rx Ry :=
  unfold denotes, in_main_ring, plaintext, reconstruct in *;
  destruct (interior x) as [[[? ?] [? ?] ?]|[[? ?] [? ?] ?]],
           (interior y) as [[[? ?] [? ?] ?]|[[? ?] [? ?] ?]];
  destruct Rx as [?R ?R], Ry as [?R ?R]; simpl in *;
  repeat match goal with
         | H : Tensor _ _ = Tensor _ _ |- _ => injection H as ? ?
         | H : ?m = M _ |- _ => subst m
         | H : ?v = ?v' |- _ => is_var v; is_var v'; subst v
         end.

Lemma add_denotes prot x y a b :
  denotes prot x a -> denotes prot y b ->
  returns (Pond.add x y) (fun z => denotes prot z (a + b)).
Proof.
  intros [Rx Px] [Ry Py] w. unfold Pond.add, bind, emit, ret.
  open_denotes x y Rx Ry.
  all: eexists _, _; (split; [reflexivity | ]); simpl.
  all: split; [ split; congruence | ].
  all: rewrite (Zplus_mod a b), <- Px, <- Py.
  all: push_mod; f_equal; ring.
Qed.

Lemma sub_denotes prot x y a b :
  denotes prot x a -> denotes prot y b ->
  returns (Pond.sub x y) (fun z => denotes prot z (a - b)).
Proof.
  intros [Rx Px] [Ry Py] w. unfold Pond.sub, bind, emit, ret.
  open_denotes x y Rx Ry.
  all: eexists _, _; (split; [reflexivity | ]); simpl.
  all: split; [ split; congruence | ].
  all: rewrite (Zminus_mod a b), <- Px, <- Py.
  all: push_mod; f_equal; ring.
Qed.

Lemma mul_denotes prot x y a b :
  denotes prot x a -> denotes prot y b ->
  returns (Pond.mul x y) (fun z => denotes prot z (a * b)).
Proof.
  intros [Rx Px] [Ry Py] w. unfold Pond.mul, bind, emit, ret.
  open_denotes x y Rx Ry.
  all: eexists _, _; (split; [reflexivity | ]); simpl.
  all: split; [ split; congruence | ].
  all: rewrite (Zmult_mod a b), <- Px, <- Py.
  all: first [ solve [push_mod; f_equal; ring]
             | rewrite Zplus_mod_idemp_r, <- Zmult_mod; f_equal; ring ].
Qed.

Lemma lift_denotes prot c : denotes prot (lift prot c) c.
Proof. unfold denotes, in_main_ring, plaintext, lift. simpl. auto. Qed.

Lemma encodes_bit_denotes prot x b :
  1 < M prot -> encodes_bit prot x b -> denotes prot x b.
Proof.
  intros HM (_ & R & P & Hb). split; [exact R | ].
  rewrite P. symmetry. apply Z.mod_small. lia.
Qed.

Lemma bitwise_not_denotes prot x a :
  is_scaled x = false -> denotes prot x a ->
  returns (bitwise_not prot x) (fun z => denotes prot z (1 - a)).
Proof.
  intros Hx Dx. unfold bitwise_not. rewrite Hx. simpl negb.
  eapply returns_bind; [apply returns_assert_true | intros _ _].
  apply sub_denotes; [apply lift_denotes | exact Dx].
Qed.

Lemma bitwise_and_denotes prot x y a b :
  is_scaled x = false -> is_scaled y = false ->
  denotes prot x a -> denotes prot y b ->
  returns (bitwise_and prot x y) (fun z => denotes prot z (a * b)).
Proof.
  intros Hx Hy Dx Dy. unfold bitwise_and. rewrite Hx, Hy. simpl negb.
  eapply returns_bind; [apply returns_assert_true | intros _ _].
  eapply returns_bind; [apply returns_assert_true | intros _ _].
  apply mul_denotes; assumption.
Qed.

Lemma bitwise_or_denotes prot x y a b :
  is_scaled x = false -> is_scaled y = false ->
  denotes prot x a -> denotes prot y b ->
  returns (bitwise_or prot x y) (fun z => denotes prot z (a + b - a * b)).
Proof.
  intros Hx Hy Dx Dy. unfold bitwise_or. rewrite Hx, Hy. simpl negb.
  eapply returns_bind; [apply returns_assert_true | intros _ _].
  eapply returns_bind; [apply returns_assert_true | intros _ _].
  eapply returns_bind; [apply add_denotes; eassumption | intros s Ds].
  eapply returns_bind;
    [apply bitwise_and_denotes; eassumption | intros c Dc].
  apply sub_denotes; assumption.
Qed.

Lemma bitwise_xor_denotes prot x y a b :
  is_scaled x = false -> is_scaled y = false ->
  denotes prot x a -> denotes prot y b ->
  returns (bitwise_xor prot x y)
          (fun z => denotes prot z (a + b - a * b * 2)).
Proof.
  intros Hx Hy Dx Dy. unfold bitwise_xor. rewrite Hx, Hy. simpl negb.
  eapply returns_bind; [apply returns_assert_true | intros _ _].
  eapply returns_bind; [apply returns_assert_true | intros _ _].
  eapply returns_bind; [apply add_denotes; eassumption | intros s Ds].
  eapply returns_bind;
    [apply bitwise_and_denotes; eassumption | intros c Dc].
  eapply returns_bind;
    [apply mul_denotes; [exact Dc | apply lift_denotes] | intros c2 Dc2].
  apply sub_denotes; assumption.
Qed.

Lemma denotes_bit prot z v :
  1 < M prot -> 0 <= v <= 1 -> denotes prot z v -> plaintext z = v.
Proof. intros HM Hv [_ P]. rewrite P. apply Z.mod_small. lia. Qed.

(** C5. For unscaled values [x] and [y] of the main ring, encoding the bits
    [a] and [b], the four operators return, and what they return
    reconstructs to [1 - a], [a * b], [a + b - a * b] and
    [a + b - 2 * a * b]: the truth tables of NOT, AND, OR and XOR.  (A ring
    has more than one element: [1 < M].) *)
Theorem boolean_operators_truth_tables :
  forall prot (x y : PondTensor) (a b : Z) (w : world),
    1 < M prot -> encodes_bit prot x a -> encodes_bit prot y b ->
    (exists z w', bitwise_not prot x w = (Return z, w') /\
                  plaintext z = 1 - a) /\
    (exists z w', bitwise_and prot x y w = (Return z, w') /\
                  plaintext z = a * b) /\
    (exists z w', bitwise_or prot x y w = (Return z, w') /\
                  plaintext z = a + b - a * b) /\
    (exists z w', bitwise_xor prot x y w = (Return z, w') /\
                  plaintext z = a + b - 2 * a * b).
Proof.
  intros prot x y a b w HM Ex Ey.
  pose proof (encodes_bit_denotes _ _ _ HM Ex) as Dx.
  pose proof (encodes_bit_denotes _ _ _ HM Ey) as Dy.
  destruct Ex as (Sx & _ & _ & Ha), Ey as (Sy & _ & _ & Hb).
  repeat split.
  - destruct (bitwise_not_denotes prot x a Sx Dx w) as (z & w' & E & D).
    exists z, w'. split; [exact E | ]. apply (denotes_bit prot); auto. lia.
  - destruct (bitwise_and_denotes prot x y a b Sx Sy Dx Dy w)
      as (z & w' & E & D).
    exists z, w'. split; [exact E | ]. apply (denotes_bit prot); auto. nia.
  - destruct (bitwise_or_denotes prot x y a b Sx Sy Dx Dy w)
      as (z & w' & E & D).
    exists z, w'. split; [exact E | ]. apply (denotes_bit prot); auto. nia.
  - destruct (bitwise_xor_denotes prot x y a b Sx Sy Dx Dy w)
      as (z & w' & E & D).
    exists z, w'. split; [exact E | ].
    replace (2 * a * b) with (a * b * 2) by ring.
    apply (denotes_bit prot); auto. nia.
Qed.

(** C5, instance: the private sharing (5, 12) of 1 and the public 1, modulo
    16. *)
Lemma boolean_operators_truth_tables_witness :
  let x := Private (share_of 16 1 5) in
  let y := Public (PondPublic (Tensor 1 16) (Tensor 1 16) false) in
  let w := fresh no_entropy in
  (1 < M even_protocol /\ encodes_bit even_protocol x 1 /\
   encodes_bit even_protocol y 1) /\
  (exists z w', bitwise_not even_protocol x w = (Return z, w') /\
                plaintext z = 1 - 1) /\
  (exists z w', bitwise_and even_protocol x y w = (Return z, w') /\
                plaintext z = 1 * 1) /\
  (exists z w', bitwise_or even_protocol x y w = (Return z, w') /\
                plaintext z = 1 + 1 - 1 * 1) /\
  (exists z w', bitwise_xor even_protocol x y w = (Return z, w') /\
                plaintext z = 1 + 1 - 2 * 1 * 1).
Proof.
  intros x y w.
  assert (HM : 1 < M even_protocol) by reflexivity.
  assert (Ex : encodes_bit even_protocol x 1)
    by (repeat split; auto).
  assert (Ey : encodes_bit even_protocol y 1)
    by (repeat split; auto).
  split; [auto | ].
  exact (boolean_operators_truth_tables even_protocol x y 1 1 w HM Ex Ey).
Defined.

(** * Wrap sharing *)

Lemma sub_mod_range (m s x : Z) :
  0 <= s < m -> 0 <= x < m ->
  (s - x) mod m = if x <=? s then s - x else s - x + m.
Proof.
  intros Hs Hx. destruct (Z.leb_spec x s).
  - apply Z.mod_small. lia.
  - rewrite <- (Z.mod_add (s - x) 1 m) by lia.
    rewrite Z.mul_1_l. apply Z.mod_small. lia.
Qed.

(** C9. For a sample that is an element of the ring of cardinality [M],
    [share_with_wrap] called with the modulus [M] returns two shares and a
    wrap count with [share-A + share-B = sample + wrap-count * M], an
    equality of integers. *)
Theorem share_with_wrap_exact :
  forall prot (sample : AbstractTensor) (w : world),
    0 < M prot -> 0 <= value sample < M prot ->
    exists x y kappa w',
      share_with_wrap prot sample (M prot) w = (Return (x, y, kappa), w') /\
      value x + value y = value sample + value kappa * M prot.
Proof.
  intros prot sample w HM Hs.
  unfold share_with_wrap, _share, sample_uniform, compute_wrap,
    bind, ret, emit, draw, M in *.
  cbn [fst snd value modulus entropy drawn device trace].
  eexists _, _, _, _. split; [reflexivity | ].
  cbn [value modulus].
  set (m := factory_modulus (tensor_factory prot)) in *.
  set (r := entropy w (drawn w) mod m).
  assert (Hr : 0 <= r < m) by (apply Z.mod_pos_bound; exact HM).
  rewrite (sub_mod_range m (value sample) r Hs Hr).
  destruct (Z.leb_spec r (value sample)).
  - destruct (Z.leb_spec m (r + (value sample - r))); lia.
  - destruct (Z.leb_spec m (r + (value sample - r + m))); lia.
Qed.

(** C9, instance: the sample 7 modulo 15, first share drawn as 11. *)
Lemma share_with_wrap_exact_witness :
  (0 < M odd_protocol /\ 0 <= value (Tensor 7 15) < M odd_protocol) /\
  exists x y kappa w',
    share_with_wrap odd_protocol (Tensor 7 15) (M odd_protocol)
                    (fresh (fun _ => 11)) = (Return (x, y, kappa), w') /\
    value x + value y = value (Tensor 7 15) + value kappa * M odd_protocol.
Proof.
  assert (HM : 0 < M odd_protocol) by reflexivity.
  assert (Hs : 0 <= value (Tensor 7 15) < M odd_protocol)
    by (simpl; unfold M; simpl; lia).
  split; [auto | ].
  exact (share_with_wrap_exact odd_protocol (Tensor 7 15)
           (fresh (fun _ => 11)) HM Hs).
Defined.

(** * Share conversion *)

(** ** Counting draws *)

Section RunRules.
Variables (e : nat -> Z) (dev : option Player).




End RunRules.




















(** ** Two runs that differ in the bitmask *)











Section Flip.
Variables (prot : SecureNN) (x : PondPrivateTensor).
Variables (e e' : nat -> Z) (d0 : nat).
Hypothesis agree : forall i, (d0 < i)%nat -> e i = e' i.




End Flip.










(** ** The round trip *)

(** C1, at a failing input.  In the native ring of cardinality [2^64] the
    plaintext 5 is shared as (3, 2).  With the bitmask drawn as one and all
    other draws zero, [share_convert] returns the shares (3, 3) of the odd
    ring of cardinality [2^64 - 1]: they reconstruct to 6, not to
    [5 mod (2^64 - 1) = 5]. *)
Theorem share_convert_round_trip_fails :
  let x := share_of (2 ^ 64) 5 3 in
  let w := fresh bitmask_set in
  M native_protocol = 2 ^ 64 /\
  reconstruct x = 5 /\
  5 mod (M native_protocol - 1) = 5 /\
  exists r w',
    share_convert native_protocol x w = (Return r, w') /\
    r = PondPrivate (Tensor 3 (2 ^ 64 - 1)) (Tensor 3 (2 ^ 64 - 1)) false /\
    reconstruct r = 6.
Proof.
  intros x w. split; [reflexivity | ]. split; [reflexivity | ].
  split; [reflexivity | ].
  eexists _, _. split; [vm_compute; reflexivity | ].
  split; reflexivity.
Qed.

(** * Further properties of securenn.py *)

(** ** Selection (lines 114-116) *)




(** ** The boolean operators off the bits (lines 40-61) *)

(** X2. The boolean operators check the scaling flag and nothing else: on
    unscaled operands standing for arbitrary ring elements [a] and [b], bits
    or not, they return the ring expressions [1 - a], [a * b],
    [a + b - a * b] and [a + b - 2 * a * b] modulo [M]. *)
Theorem boolean_operators_are_ring_arithmetic :
  forall prot (x y : PondTensor) (a b : Z) (w : world),
    is_scaled x = false -> is_scaled y = false ->
    denotes prot x a -> denotes prot y b ->
    (exists z w', bitwise_not prot x w = (Return z, w') /\
                  plaintext z = (1 - a) mod M prot) /\
    (exists z w', bitwise_and prot x y w = (Return z, w') /\
                  plaintext z = (a * b) mod M prot) /\
    (exists z w', bitwise_or prot x y w = (Return z, w') /\
                  plaintext z = (a + b - a * b) mod M prot) /\
    (exists z w', bitwise_xor prot x y w = (Return z, w') /\
                  plaintext z = (a + b - 2 * a * b) mod M prot).
Proof.
  intros prot x y a b w Sx Sy Dx Dy. repeat split.
  - destruct (bitwise_not_denotes prot x a Sx Dx w) as (z & w' & E & _ & P).
    eauto.
  - destruct (bitwise_and_denotes prot x y a b Sx Sy Dx Dy w)
      as (z & w' & E & _ & P). eauto.
  - destruct (bitwise_or_denotes prot x y a b Sx Sy Dx Dy w)
      as (z & w' & E & _ & P). eauto.
  - destruct (bitwise_xor_denotes prot x y a b Sx Sy Dx Dy w)
      as (z & w' & E & _ & P).
    exists z, w'. split; [exact E | ]. rewrite P. f_equal. ring.
Qed.

(** X2, instance: the private 5 and the public 3 modulo 16. *)
Lemma boolean_operators_are_ring_arithmetic_witness :
  let x := Private (share_of 16 5 11) in
  let y := Public (PondPublic (Tensor 3 16) (Tensor 3 16) false) in
  let w := fresh no_entropy in
  (is_scaled x = false /\ is_scaled y = false /\
   denotes even_protocol x 5 /\ denotes even_protocol y 3) /\
  (exists z w', bitwise_not even_protocol x w = (Return z, w') /\
                plaintext z = (1 - 5) mod M even_protocol) /\
  (exists z w', bitwise_and even_protocol x y w = (Return z, w') /\
                plaintext z = (5 * 3) mod M even_protocol) /\
  (exists z w', bitwise_or even_protocol x y w = (Return z, w') /\
                plaintext z = (5 + 3 - 5 * 3) mod M even_protocol) /\
  (exists z w', bitwise_xor even_protocol x y w = (Return z, w') /\
                plaintext z = (5 + 3 - 2 * 5 * 3) mod M even_protocol).
Proof.
  intros x y w.
  assert (Sx : is_scaled x = false) by reflexivity.
  assert (Sy : is_scaled y = false) by reflexivity.
  assert (Dx : denotes even_protocol x 5) by (repeat split; auto).
  assert (Dy : denotes even_protocol y 3) by (repeat split; auto).
  split; [auto | ].
  exact (boolean_operators_are_ring_arithmetic
           even_protocol x y 5 3 w Sx Sy Dx Dy).
Defined.

(** ** Exclusive or in the odd ring (lines 63-74) *)



(** ** Reinterpretation in the odd ring (lines 199-206) *)



(** ** The sign family behind a mask (lines 76-112, 188-191, 241-242) *)








(** ** Helpers (lines 245-254) *)


(** X7. For a sample in [[0, M)], the two shares returned by
    [share_with_wrap] lie in [[0, M)] and reconstruct to the sample modulo
    [M], and the wrap count is 1 exactly when the first share exceeds the
    sample, 0 otherwise. *)
Theorem share_with_wrap_wraps_iff_first_share_exceeds :
  forall prot (sample : AbstractTensor) (w : world),
    0 < M prot -> 0 <= value sample < M prot ->
    exists x y kappa w',
      share_with_wrap prot sample (M prot) w = (Return (x, y, kappa), w') /\
      0 <= value x < M prot /\ 0 <= value y < M prot /\
      value kappa = (if value sample <? value x then 1 else 0) /\
      (value x + value y) mod M prot = value sample.
Proof.
  intros prot sample w HM Hs.
  unfold share_with_wrap, _share, sample_uniform, compute_wrap,
    bind, ret, emit, draw, M in *.
  cbn [fst snd value modulus entropy drawn device trace].
  eexists _, _, _, _. split; [reflexivity | ].
  cbn [value modulus].
  set (m := factory_modulus (tensor_factory prot)) in *.
  set (r := entropy w (drawn w) mod m).
  assert (Hr : 0 <= r < m) by (apply Z.mod_pos_bound; exact HM).
  split; [exact Hr | ]. split; [apply Z.mod_pos_bound; exact HM | ].
  rewrite (sub_mod_range m (value sample) r Hs Hr).
  destruct (Z.leb_spec r (value sample)), (Z.ltb_spec (value sample) r);
    try lia.
  - destruct (Z.leb_spec m (r + (value sample - r))); [lia | ].
    split; [reflexivity | ].
    replace (r + (value sample - r)) with (value sample) by ring.
    apply Z.mod_small. lia.
  - destruct (Z.leb_spec m (r + (value sample - r + m))); [ | lia].
    split; [reflexivity | ].
    replace (r + (value sample - r + m)) with (value sample + 1 * m) by ring.
    rewrite Z.mod_add by lia. apply Z.mod_small. lia.
Qed.

(** X7, instance: the sample 7 modulo 15, first share drawn as 11. *)
Lemma share_with_wrap_wraps_iff_first_share_exceeds_witness :
  (0 < M odd_protocol /\ 0 <= value (Tensor 7 15) < M odd_protocol) /\
  exists x y kappa w',
    share_with_wrap odd_protocol (Tensor 7 15) (M odd_protocol)
                    (fresh (fun _ => 11)) = (Return (x, y, kappa), w') /\
    0 <= value x < M odd_protocol /\ 0 <= value y < M odd_protocol /\
    value kappa = (if value (Tensor 7 15) <? value x then 1 else 0) /\
    (value x + value y) mod M odd_protocol = value (Tensor 7 15).
Proof.
  assert (HM : 0 < M odd_protocol) by reflexivity.
  assert (Hs : 0 <= value (Tensor 7 15) < M odd_protocol)
    by (vm_compute; split; [discriminate | reflexivity]).
  split; [auto | ].
  exact (share_with_wrap_wraps_iff_first_share_exceeds odd_protocol
           (Tensor 7 15) (fresh (fun _ => 11)) HM Hs).
Defined.

(** ** What share conversion returns (lines 121-183) *)









(** ** The error of share conversion (lines 121-183) *)








